(** * ozzy: the [Api] handle and its middleware chain

    A shallow embedding of [src/core/Api.ts].  The class [Api] owns four
    fields ([baseUrl], [auth], [headers], [middleware]); its methods mutate
    [headers] and [middleware] in place, so every method is a computation
    over a world that holds the handle.  The platform the class calls into
    ([new URL], [JSON.stringify], node-fetch) is not part of the repository
    and is taken as parameters of the development.

    Promises are followed to the point where they settle, and the calls on a
    handle are made one after the other, each settled before the next; the
    arrays of a handle are shared with no other handle. *)

From Stdlib Require Import String Arith Lia Bool.
From Stdlib Require Import List Sorted.
Import ListNotations.
Open Scope string_scope.
Open Scope list_scope.
Open Scope nat_scope.

Set Implicit Arguments.

(** ** Values, completions and middleware *)

Section Chain.

(** The values flowing through a chain are typed [any] in the source. *)
Variable Value : Type.

(** What a JavaScript [throw] carries: a [TypeError] raised by the platform,
    or any value raised by user code, a rejected transport included. *)
Inductive Exn : Type :=
| TypeError (msg : string)
| Raised (v : Value).

(** A call either completes normally or abruptly. *)
Inductive Completion (A : Type) : Type :=
| Normal (a : A)
| Abrupt (e : Exn).
Arguments Abrupt {A} e.

(** Modelled from the spec: [types/Middleware.ts] is missing; a middleware
    is a function-shaped value with contract [(data, next) -> Result] that
    may return, fail, or call [next] and use what it returns.  All a
    middleware can do to the engine is call [next], so its body is described
    by the calls it makes:
    - [Return v]: [return v];
    - [Throw e]: [throw e];
    - [Next v k]: [const r = next(v)], then go on as [k r]; a failure of
      [next] passes through the middleware;
    - [TryNext v k h]: the same inside [try { } catch (e) { }], going on as
      [h e] when [next] fails. *)
Inductive Action : Type :=
| Return (v : Value)
| Throw (e : Exn)
| Next (v : Value) (k : Value -> Action)
| TryNext (v : Value) (k : Value -> Action) (h : Exn -> Action).

Definition Middleware : Type := Value -> Action.

(** Ghost events of one chain run: the engine called the middleware at a
    position, or the body of the middleware at a position threw. *)
Inductive Event : Type :=
| Invoked (i : nat)
| Failed (i : nat) (e : Exn).

(** The closure state of [applyMiddleware]: the variable [index] that
    [nextHandler] captures, and the ghost log. *)
Record Cursor : Type := mkCursor { index : nat; log : list Event }.

Definition record (ev : Event) (c : Cursor) : Cursor :=
  {| index := index c; log := log c ++ [ev] |}.

Definition not_a_function : Exn :=
  TypeError "this.middleware[index] is not a function".

Section Engine.

(** [this.middleware], read by every step of the engine. *)
Variable mws : list Middleware.

(** Runs the body of the middleware at position [i]; [next] is the
    continuation it was handed.  [None] only when [next] gives [None]. *)
Fixpoint interp (next : Value -> Cursor -> option (Completion Value * Cursor))
    (i : nat) (a : Action) (c : Cursor) : option (Completion Value * Cursor) :=
  match a with
  | Return v => Some (Normal v, c)
  | Throw e => Some (Abrupt e, record (Failed i e) c)
  | Next v k =>
      match next v c with
      | None => None
      | Some (Normal r, c') => interp next i (k r) c'
      | Some (Abrupt e, c') => Some (Abrupt e, c')
      end
  | TryNext v k h =>
      match next v c with
      | None => None
      | Some (Normal r, c') => interp next i (k r) c'
      | Some (Abrupt e, c') => interp next i (h e) c'
      end
  end.

(** [this.middleware[i](d, next)]: calling an element that is not there is
    calling [undefined]. *)
Definition invoke (next : Value -> Cursor -> option (Completion Value * Cursor))
    (i : nat) (d : Value) (c : Cursor) : option (Completion Value * Cursor) :=
  match nth_error mws i with
  | None => Some (Abrupt not_a_function, c)
  | Some m => interp next i (m d) (record (Invoked i) c)
  end.

(** [nextHandler]: [index++], then the bound check, then the call.  The
    fuel bounds the depth of nested calls; [None] is fuel exhausted. *)
Fixpoint nextHandler (fuel : nat) (newData : Value) (c : Cursor)
    : option (Completion Value * Cursor) :=
  let c1 := {| index := S (index c); log := log c |} in
  if (length mws <=? index c1)%nat then Some (Normal newData, c1)
  else
    match fuel with
    | O => None
    | S fuel' => invoke (nextHandler fuel') (index c1) newData c1
    end.

(** [applyMiddleware(data)]: [let index = 0], then
    [this.middleware[index](data, nextHandler)]. *)
Definition applyMiddleware (data : Value) : option (Completion Value * Cursor) :=
  invoke (nextHandler (length mws)) 0 data {| index := 0; log := [] |}.

End Engine.

End Chain.

Arguments TypeError {Value} msg.
Arguments Normal {Value A} a.
Arguments Abrupt {Value A} e.
Arguments Invoked {Value} i.
Arguments not_a_function {Value}.

(** ** The handle *)

(** Modelled from the spec: [enums/RestMethods.ts] is missing; the four
    methods the class names and the transport must support. *)
Inductive RestMethods : Type := GET | PUT | POST | DELETE.

(** Modelled from the spec: [core/Auth.ts] is missing; an auth strategy is
    constructed once, is immutable, and [getHeaders()] is a pure function of
    its configuration.  The class spreads its result into an array of header
    entries, so that result is all an [Auth] is here. *)
Record Auth : Type := mkAuth { getHeaders : list (list string) }.

(** The platform's [URL]: what [new URL(url, base)] resolved, and the
    entries of its [searchParams]. *)
Record URL : Type := mkURL { href : string; searchParams : list (string * string) }.

(** [searchParams.append(name, value)] *)
Definition searchParams_append (u : URL) (name value : string) : URL :=
  {| href := href u; searchParams := searchParams u ++ [(name, value)] |}.

(** What ends up under the key [headers] of the request: the source stores
    there what [Array.prototype.push] returned, a number; an array of
    entries is what a header set would be. *)
Inductive HeadersInit : Type :=
| HNumber (n : nat)
| HEntries (entries : list (list string)).

(** The [options] object a verb builds, and the object handed to the
    transport, [{ headers: combinedHeaders, ...options }]. *)
Record Options : Type := mkOptions { body : option string; method : RestMethods }.

Record RequestInit : Type :=
  mkRequestInit { init_headers : HeadersInit; init_options : Options }.

Section Handle.

Variable Value : Type.

(** The platform: [new URL(url, base)], which throws on what it cannot
    parse; [JSON.stringify], which throws on what it cannot serialise and
    gives [undefined] ([None]) for what has no JSON form; and node-fetch,
    whose promise settles with a response or a failure. *)
Variable URL_new : string -> string -> Completion Value URL.
Variable JSON_stringify : Value -> Completion Value (option string).
Variable node_fetch : URL -> RequestInit -> Completion Value Value.

Record Api : Type := mkApi {
  baseUrl : string;
  auth : Auth;
  headers : list (list string);
  middleware : list (Middleware Value)
}.

(** [constructor(baseUrl, auth, headers = [], ...middleware)] *)
Definition constructor (baseUrl : string) (auth : Auth)
    (headers : list (list string)) (middleware : list (Middleware Value)) : Api :=
  {| baseUrl := baseUrl; auth := auth; headers := headers; middleware := middleware |}.

(** The handle, with two ghost logs: the requests handed to the transport
    and the event log of every chain run, oldest first.  The constructor
    keeps the [headers] array it is given; it is taken to be the handle's
    alone. *)
Record World : Type := mkWorld {
  this : Api;
  sent : list (URL * RequestInit);
  runs : list (list (Event Value))
}.

(** A settled promise; [Pending] is one that never settles. *)
Inductive Promise : Type :=
| Resolved (v : Value)
| Rejected (e : Exn Value)
| Pending.

(** Methods: state passing over the world, with synchronous throws. *)
Definition M (A : Type) : Type := World -> Completion Value A * World.

Definition ret {A : Type} (a : A) : M A := fun w => (Normal a, w).

Definition bind {A B : Type} (m : M A) (f : A -> M B) : M B :=
  fun w =>
    match m w with
    | (Normal a, w') => f a w'
    | (Abrupt e, w') => (Abrupt e, w')
    end.

Definition lift {A : Type} (c : Completion Value A) : M A := fun w => (c, w).

Definition self : M Api := fun w => (Normal (this w), w).

Notation "x <- m ;; f" := (bind m (fun x => f))
  (at level 61, m at next level, right associativity).

(** [this.middleware.push(...items)] and [this.headers.push(...items)]:
    both mutate the array of the handle and return its new length. *)
Definition middleware_push (items : list (Middleware Value)) : M nat :=
  fun w =>
    let a := this w in
    let arr := middleware a ++ items in
    (Normal (length arr),
     {| this := {| baseUrl := baseUrl a; auth := auth a;
                   headers := headers a; middleware := arr |};
        sent := sent w; runs := runs w |}).

Definition headers_push (items : list (list string)) : M nat :=
  fun w =>
    let a := this w in
    let arr := headers a ++ items in
    (Normal (length arr),
     {| this := {| baseUrl := baseUrl a; auth := auth a;
                   headers := arr; middleware := middleware a |};
        sent := sent w; runs := runs w |}).

(** The call of node-fetch: one request on the wire, one promise back. *)
Definition transport (url : URL) (init : RequestInit) : M Promise :=
  fun w =>
    (Normal match node_fetch url init with
            | Normal response => Resolved response
            | Abrupt error => Rejected error
            end,
     {| this := this w; sent := sent w ++ [(url, init)]; runs := runs w |}).

(** [this.applyMiddleware(response)] as the callback of [then]: the chain
    runs over [this.middleware] as it is when the response arrives. *)
Definition runChain (response : Value) (w : World)
    : option (Completion Value Value * World) :=
  match applyMiddleware (middleware (this w)) response with
  | None => None
  | Some (r, c) =>
      Some (r, {| this := this w; sent := sent w; runs := runs w ++ [log c] |})
  end.

(** [p.then(f)]: [f] runs on a resolved value; what it returns resolves the
    new promise and what it throws rejects it. *)
Definition promise_then (p : Promise)
    (f : Value -> World -> option (Completion Value Value * World)) : M Promise :=
  fun w =>
    match p with
    | Resolved v =>
        match f v w with
        | None => (Normal Pending, w)
        | Some (Normal r, w') => (Normal (Resolved r), w')
        | Some (Abrupt e, w') => (Normal (Rejected e), w')
        end
    | Rejected e => (Normal (Rejected e), w)
    | Pending => (Normal Pending, w)
    end.

(** [p.catch(f)]: [f] runs on a rejection and the promise it returns is
    adopted. *)
Definition promise_catch (p : Promise) (f : Exn Value -> M Promise) : M Promise :=
  match p with
  | Rejected e => f e
  | _ => ret p
  end.

Definition Promise_reject (error : Exn Value) : M Promise := ret (Rejected error).

(** [fetch(url, options)] *)
Definition fetch (url : string) (options : Options) : M Promise :=
  a <- self ;;
  fullUrl <- lift (URL_new url (baseUrl a)) ;;
  combinedHeaders <- headers_push (getHeaders (auth a)) ;;
  p <- transport fullUrl
         {| init_headers := HNumber combinedHeaders; init_options := options |} ;;
  p <- promise_then p runChain ;;
  promise_catch p (fun error => Promise_reject error).


(** [get(url, ...middleware)] *)
Definition get (url : string) (middleware : list (Middleware Value)) : M Promise :=
  _ <- middleware_push middleware ;;
  let options := {| body := None; method := GET |} in
  fetch url options.

(** [put(url, payload, ...middleware)] *)
Definition put (url : string) (payload : Value)
    (middleware : list (Middleware Value)) : M Promise :=
  _ <- middleware_push middleware ;;
  json <- lift (JSON_stringify payload) ;;
  let options := {| body := json; method := PUT |} in
  fetch url options.

(** [post(url, payload, ...middleware)] *)
Definition post (url : string) (payload : Value)
    (middleware : list (Middleware Value)) : M Promise :=
  _ <- middleware_push middleware ;;
  json <- lift (JSON_stringify payload) ;;
  let options := {| body := json; method := POST |} in
  fetch url options.

(** [delete(url, payload, ...middleware)] *)
Definition delete (url : string) (payload : Value)
    (middleware : list (Middleware Value)) : M Promise :=
  _ <- middleware_push middleware ;;
  json <- lift (JSON_stringify payload) ;;
  let options := {| body := json; method := DELETE |} in
  fetch url options.

(** A [Record<string, string>] is the list of its properties in the order
    [for ... in] enumerates them; [params[param]] reads one of them. *)
Definition property (params : list (string * string)) (param : string) : string :=
  match find (fun kv => String.eqb (fst kv) param) params with
  | Some kv => snd kv
  | None => "undefined"
  end.

(** [constructUrlWithQueryParams(url, params)] *)
Definition constructUrlWithQueryParams (url : string)
    (params : list (string * string)) : M URL :=
  a <- self ;;
  urlObject <- lift (URL_new url (baseUrl a)) ;;
  ret (fold_left
         (fun urlObject param =>
            searchParams_append urlObject param (property params param))
         (map fst params) urlObject).

(** One verb call, and a caller that makes calls one after the other,
    each settled before the next. *)
Inductive Call : Type :=
| CallGet (url : string) (mw : list (Middleware Value))
| CallPut (url : string) (payload : Value) (mw : list (Middleware Value))
| CallPost (url : string) (payload : Value) (mw : list (Middleware Value))
| CallDelete (url : string) (payload : Value) (mw : list (Middleware Value)).

Definition perform (c : Call) : M Promise :=
  match c with
  | CallGet url mw => get url mw
  | CallPut url payload mw => put url payload mw
  | CallPost url payload mw => post url payload mw
  | CallDelete url payload mw => delete url payload mw
  end.

Definition call_url (c : Call) : string :=
  match c with
  | CallGet url _ | CallPut url _ _ | CallPost url _ _ | CallDelete url _ _ => url
  end.

Definition call_middleware (c : Call) : list (Middleware Value) :=
  match c with
  | CallGet _ mw | CallPut _ _ mw | CallPost _ _ mw | CallDelete _ _ mw => mw
  end.

Definition call_payload (c : Call) : option Value :=
  match c with
  | CallGet _ _ => None
  | CallPut _ p _ | CallPost _ p _ | CallDelete _ p _ => Some p
  end.

Definition perform_all (cs : list Call) (w : World) : World :=
  fold_left (fun w c => snd (perform c w)) cs w.

(** *** Vocabulary of the statements *)

Definition call_method (c : Call) : RestMethods :=
  match c with
  | CallGet _ _ => GET
  | CallPut _ _ _ => PUT
  | CallPost _ _ _ => POST
  | CallDelete _ _ _ => DELETE
  end.

(** What a call computes before it touches [this.headers]: the serialised
    payload, in the verb, then the full URL, in [fetch]. *)
Definition prepare (c : Call) (a : Api) : Completion Value (URL * Options) :=
  match
    match call_payload c with
    | None => Normal None
    | Some payload => JSON_stringify payload
    end
  with
  | Abrupt e => Abrupt e
  | Normal json =>
      match URL_new (call_url c) (baseUrl a) with
      | Abrupt e => Abrupt e
      | Normal fullUrl => Normal (fullUrl, {| body := json; method := call_method c |})
      end
  end.

Definition constructed (c : Call) (a : Api) : bool :=
  match prepare c a with
  | Normal _ => true
  | Abrupt _ => false
  end.

(** The request object of a call: [headers] holds the length of the
    handle's header array after the push. *)
Definition request_init (a : Api) (options : Options) : RequestInit :=
  {| init_headers := HNumber (length (headers a ++ getHeaders (auth a)));
     init_options := options |}.

(** The requests a sequence of calls puts on the wire, read off the calls:
    one for each call whose request is constructed, to its URL and with its
    options, the [k]-th of them carrying under [headers] the length of the
    header array after [k] pushes of the auth entries. *)
Fixpoint expected_requests (a : Api) (k : nat) (cs : list Call)
    : list (URL * RequestInit) :=
  match cs with
  | [] => []
  | c :: cs' =>
      match prepare c a with
      | Normal (fullUrl, options) =>
          (fullUrl,
           {| init_headers :=
                HNumber (length (headers a) + k * length (getHeaders (auth a)));
              init_options := options |})
          :: expected_requests a (S k) cs'
      | Abrupt _ => expected_requests a k cs'
      end
  end.

(** The promise a chain run settles. *)
Definition settle (r : Completion Value Value) : Promise :=
  match r with
  | Normal v => Resolved v
  | Abrupt e => Rejected e
  end.

End Handle.

Arguments Pending {Value}.
Arguments mkWorld {Value} this sent runs.
Arguments mkApi {Value} baseUrl auth headers middleware.

Section Behaviours.

Variable Value : Type.

(** The positions the engine called, in the order of the calls. *)
Fixpoint invoked (l : list (Event Value)) : list nat :=
  match l with
  | [] => []
  | Invoked i :: l' => i :: invoked l'
  | Failed _ _ :: l' => invoked l'
  end.

(** [(data, next) => next(data)], possibly after side effects of its own. *)
Definition passthrough (m : Middleware Value) : Prop :=
  forall d, exists k, m d = Next d k /\ forall r, k r = Return r.

(** [(data, next) => next(f(data))]: one call of [next], whose result is
    returned as it is. *)
Definition forwards (m : Middleware Value) : Prop :=
  forall d, exists v k, m d = Next v k /\ forall r, k r = Return r.

(** A body that completes without a call of [next], and its completion. *)
Definition never_calls_next (a : Action Value) : Prop :=
  match a with
  | Return _ | Throw _ => True
  | Next _ _ | TryNext _ _ _ => False
  end.

Definition completion (a : Action Value) : Completion Value Value :=
  match a with
  | Return v => Normal v
  | Throw e => Abrupt e
  | Next v _ | TryNext v _ _ => Normal v
  end.

(** The data that reaches the end of a list of middleware when each hands
    on what it passes to [next]. *)
Fixpoint feed (ms : list (Middleware Value)) (d : Value) : Value :=
  match ms with
  | [] => d
  | m :: ms' =>
      match m d with
      | Next v _ | TryNext v _ _ => feed ms' v
      | Return _ | Throw _ => d
      end
  end.

(** [(data, next) => g(next(f(data)))]: the data is transformed on the way
    in and the result of the rest of the chain on the way out. *)
Definition wraps (f g : Value -> Value) (m : Middleware Value) : Prop :=
  forall d, exists k, m d = Next (f d) k /\ forall r, k r = Return (g r).

(** What a chain of wrapping middleware computes: the inbound functions in
    list order, then the outbound ones in reverse order. *)
Fixpoint onion (fgs : list ((Value -> Value) * (Value -> Value))) (d : Value) : Value :=
  match fgs with
  | [] => d
  | (f, g) :: fgs' => g (onion fgs' (f d))
  end.

(** A body with no [try/catch] around a call of [next]. *)
Inductive handler_free : Action Value -> Prop :=
| hf_Return v : handler_free (Return v)
| hf_Throw e : handler_free (Throw e)
| hf_Next v k : (forall r, handler_free (k r)) -> handler_free (Next v k).

(** The invariant of the cursor: the positions called so far are strictly
    increasing and none is beyond [index]. *)
Definition ordered (c : Cursor Value) : Prop :=
  StronglySorted lt (invoked (log c)) /\
  Forall (fun i => i <= index c) (invoked (log c)).

(** The invariant of a run over [mws]: [ordered], and only positions of
    the list. *)
Definition sound (mws : list (Middleware Value)) (c : Cursor Value) : Prop :=
  ordered c /\ Forall (fun i => i < length mws) (invoked (log c)).

Definition no_failure (l : list (Event Value)) : Prop :=
  forall i e, ~ In (Failed i e) l.

(** A run in which nothing failed, or whose last event is the failure it
    completed with. *)
Definition final (r : Completion Value Value) (c : Cursor Value) : Prop :=
  no_failure (log c) \/
  exists i e l, r = Abrupt e /\ log c = l ++ [Failed i e] /\ no_failure l.

End Behaviours.

(** ** A concrete platform and concrete middleware *)

Module Demo.

(** Values are numbers.  The URL constructor accepts a base that starts
    with [http] and rejects anything else, as [new URL] rejects a base
    without a scheme. *)
Definition URL_new (url base : string) : Completion nat URL :=
  if String.prefix "http" base
  then Normal {| href := base ++ url; searchParams := [] |}
  else Abrupt (TypeError "Invalid URL").

Definition JSON_stringify (payload : nat) : Completion nat (option string) :=
  Normal (Some "{}").

(** The endpoint [/down] is unreachable, every other one answers [200]. *)
Definition node_fetch (url : URL) (init : RequestInit) : Completion nat nat :=
  if String.eqb (href url) "https://api.example.com/down"
  then Abrupt (Raised 503)
  else Normal 200.

Definition bearer : Auth := {| getHeaders := [["Authorization"; "Bearer abc"]] |}.

(** [(data, next) => next(data)] *)
Definition forward : Middleware nat := fun data => Next data (@Return nat).

(** [(data, next) => next(data + 1)] *)
Definition bump : Middleware nat := fun data => Next (S data) (@Return nat).


(** [(data, next) => v] *)
Definition stop (v : nat) : Middleware nat := fun _ => Return v.

(** [(data, next) => next(data) + 1] *)
Definition wrap : Middleware nat := fun data => Next data (fun r => Return (S r)).

(** [(data, next) => { next(data); return next(data) }] *)
Definition twice : Middleware nat :=
  fun data => Next data (fun _ => Next data (@Return nat)).

(** [(data, next) => { throw 1 }] *)
Definition boom : Middleware nat := fun _ => Throw (Raised 1).

(** [(data, next) => { try { return next(data) } catch (e) { return next(data) } }] *)
Definition rescue : Middleware nat :=
  fun data => TryNext data (@Return nat) (fun _ => Next data (@Return nat)).

Definition handle (base : string) (mw : list (Middleware nat)) : World nat :=
  mkWorld (constructor base bearer [["Accept"; "application/json"]] mw) [] [].

Definition perform := perform URL_new JSON_stringify node_fetch.
Definition perform_all := perform_all URL_new JSON_stringify node_fetch.

(** A service with two handle-level middleware, one whose base URL is not
    a URL, and one whose first middleware catches. *)
Definition service : World nat := handle "https://api.example.com" [forward; bump].
Definition misconfigured : World nat := handle "api.example.com" [forward].
Definition guarded : World nat :=
  handle "https://api.example.com" [rescue; boom; stop 20].

Definition items : URL :=
  {| href := "https://api.example.com/items"; searchParams := [] |}.
Definition down : URL :=
  {| href := "https://api.example.com/down"; searchParams := [] |}.
Definition get_options : Options := {| body := None; method := GET |}.

End Demo.

(** ** The chain engine *)

Section ChainFacts.

Variable Value : Type.
Variable mws : list (Middleware Value).

Lemma skipn_nth_error (A : Type) (l : list A) (j : nat) (x : A) :
  nth_error l j = Some x -> skipn j l = x :: skipn (S j) l.
Proof.
  revert l; induction j as [|j IH]; intros [|y l] H; simpl in H; try discriminate.
  - now injection H as ->.
  - now apply IH.
Qed.

Lemma Forall_segment (A : Type) (P : A -> Prop) (l : list A) (n j : nat) :
  Forall P l -> Forall P (firstn n (skipn j l)).
Proof.
  intros H.
  rewrite <- (firstn_skipn j l) in H. apply Forall_app in H as [_ H].
  rewrite <- (firstn_skipn n (skipn j l)) in H. now apply Forall_app in H.
Qed.

Lemma passthrough_forwards (m : Middleware Value) : passthrough m -> forwards m.
Proof. intros H d. destruct (H d) as (k & E & Hk). now exists d, k. Qed.

Lemma feed_passthrough (ms : list (Middleware Value)) (d : Value) :
  Forall (@passthrough Value) ms -> feed ms d = d.
Proof.
  induction 1 as [|m ms Hm _ IH]; simpl; [reflexivity|].
  destruct (Hm d) as (k & -> & _). exact IH.
Qed.

(** A middleware that returns what its one call of [next] gave is
    transparent: calling it is calling [next]. *)
Lemma invoke_forward (next : Value -> Cursor Value -> option (Completion Value Value * Cursor Value)) (i : nat) (m : Middleware Value)
    (d v : Value) (k : Value -> Action Value) (c : Cursor Value) :
  nth_error mws i = Some m -> m d = Next v k -> (forall r, k r = Return r) ->
  invoke mws next i d c = next v (record (Invoked i) c).
Proof.
  intros Hm Hd Hk. unfold invoke. rewrite Hm, Hd. simpl.
  destruct (next v _) as [[[r|e] c']|]; try reflexivity.
  rewrite Hk. reflexivity.
Qed.

Lemma nextHandler_inside (fuel : nat) (v : Value) (c : Cursor Value) :
  S (index c) < length mws ->
  nextHandler mws (S fuel) v c =
  invoke mws (nextHandler mws fuel) (S (index c)) v
    {| index := S (index c); log := log c |}.
Proof.
  intros H. simpl. destruct (Nat.leb_spec (length mws) (S (index c))) as [L|L].
  - lia.
  - reflexivity.
Qed.

Lemma nextHandler_last (fuel : nat) (v : Value) (c : Cursor Value) :
  length mws <= S (index c) ->
  nextHandler mws fuel v c = Some (Normal v, {| index := S (index c); log := log c |}).
Proof.
  intros H. destruct fuel; simpl;
    destruct (Nat.leb_spec (length mws) (S (index c))) as [L|L];
    try reflexivity; lia.
Qed.

(** A run of [S n] forwarding middleware from position [j] on amounts to
    the call of [next] made by the last of them. *)
Lemma forward_run (n : nat) :
  forall (j fuel : nat) (d : Value) (c : Cursor Value),
    index c = j ->
    Forall (@forwards Value) (firstn (S n) (skipn j mws)) ->
    j + S n <= length mws ->
    invoke mws (nextHandler mws (n + fuel)) j d c =
    nextHandler mws fuel (feed (firstn (S n) (skipn j mws)) d)
      {| index := j + n; log := log c ++ map Invoked (seq j (S n)) |}.
Proof.
  induction n as [|n IH]; intros j fuel d c Hc Hf Hlen.
  - destruct (nth_error mws j) as [m|] eqn:Hm.
    2:{ apply nth_error_None in Hm. lia. }
    rewrite (skipn_nth_error _ _ Hm) in Hf |- *.
    simpl in Hf |- *. apply Forall_inv in Hf.
    destruct (Hf d) as (v & k & Hd & Hk).
    rewrite (invoke_forward _ _ _ c Hm Hd Hk), Hd.
    unfold record. rewrite Hc, Nat.add_0_r. reflexivity.
  - destruct (nth_error mws j) as [m|] eqn:Hm.
    2:{ apply nth_error_None in Hm. lia. }
    rewrite (skipn_nth_error _ _ Hm) in Hf |- *.
    change (firstn (S (S n)) (m :: skipn (S j) mws))
      with (m :: firstn (S n) (skipn (S j) mws)) in Hf |- *.
    pose proof (Forall_inv Hf) as Hfm. apply Forall_inv_tail in Hf.
    destruct (Hfm d) as (v & k & Hd & Hk).
    rewrite (invoke_forward _ _ _ c Hm Hd Hk).
    change (S n + fuel) with (S (n + fuel)).
    rewrite nextHandler_inside by (simpl; lia).
    unfold record; simpl index; simpl log. rewrite Hc.
    rewrite (IH (S j) fuel v) by (simpl; auto; lia).
    simpl feed. rewrite Hd. simpl log.
    f_equal. f_equal.
    + lia.
    + rewrite <- app_assoc. reflexivity.
Qed.

(** *** Every run ends, and calls positions in increasing order *)

Lemma invoked_app (l1 l2 : list (Event Value)) :
  invoked (l1 ++ l2) = invoked l1 ++ invoked l2.
Proof.
  induction l1 as [|[i|i e] l1 IH]; simpl; rewrite ?IH; reflexivity.
Qed.

Lemma sorted_snoc (l : list nat) (i : nat) :
  StronglySorted lt l -> Forall (fun x => x < i) l -> StronglySorted lt (l ++ [i]).
Proof.
  induction 1 as [|x l Hs IH Hx]; intros Hi; simpl.
  - repeat constructor.
  - constructor.
    + apply IH. now apply Forall_inv_tail in Hi.
    + apply Forall_app. split; [exact Hx|].
      constructor; [|constructor]. now apply Forall_inv in Hi.
Qed.

Lemma sound_index (c : Cursor Value) (i : nat) :
  sound mws c -> index c <= i -> sound mws {| index := i; log := log c |}.
Proof.
  intros [[Hs Hb] Hw] Hi. repeat split; simpl; auto.
  eapply Forall_impl; [|exact Hb]. simpl. intros; lia.
Qed.

Lemma sound_Failed (c : Cursor Value) (i : nat) (e : Exn Value) :
  sound mws c -> sound mws (record (Failed i e) c).
Proof.
  intros [[Hs Hb] Hw]. unfold sound, ordered, record; simpl.
  rewrite invoked_app; simpl. rewrite app_nil_r. auto.
Qed.

Lemma sound_Invoked (c : Cursor Value) (i : nat) :
  StronglySorted lt (invoked (log c)) ->
  Forall (fun x => x < i) (invoked (log c)) ->
  Forall (fun x => x < length mws) (invoked (log c)) ->
  index c = i -> i < length mws ->
  sound mws (record (Invoked i) c).
Proof.
  intros Hs Hb Hw Hi Hlen. unfold sound, ordered, record; simpl.
  rewrite invoked_app; simpl. repeat split.
  - now apply sorted_snoc.
  - apply Forall_app. split.
    + eapply Forall_impl; [|exact Hb]. simpl. intros; lia.
    + repeat constructor. lia.
  - apply Forall_app. split; [exact Hw|]. repeat constructor. exact Hlen.
Qed.

Lemma interp_total (next : Value -> Cursor Value -> option (Completion Value Value * Cursor Value)) (lo i : nat) :
  (forall v c, sound mws c -> lo <= index c ->
     exists r c', next v c = Some (r, c') /\ sound mws c' /\ index c < index c') ->
  forall a c, sound mws c -> lo <= index c ->
    exists r c', interp next i a c = Some (r, c') /\ sound mws c' /\ index c <= index c'.
Proof.
  intros Hnext.
  induction a as [v|e|v k IH|v k IHk h IHh]; intros c Hc Hlo; simpl.
  - exists (Normal v), c. auto.
  - exists (Abrupt e), (record (Failed i e) c). split; [reflexivity|].
    split; [now apply sound_Failed|]. simpl. lia.
  - destruct (Hnext v c Hc Hlo) as (r & c' & -> & Hc' & Hlt).
    destruct r as [r|e].
    + assert (Hlo' : lo <= index c') by lia.
      destruct (IH r c' Hc' Hlo') as (r' & c'' & -> & Hc'' & Hle).
      exists r', c''. split; [reflexivity|]. split; [exact Hc''|lia].
    + exists (Abrupt e), c'. split; [reflexivity|]. split; [exact Hc'|lia].
  - destruct (Hnext v c Hc Hlo) as (r & c' & -> & Hc' & Hlt).
    destruct r as [r|e].
    + assert (Hlo' : lo <= index c') by lia.
      destruct (IHk r c' Hc' Hlo') as (r' & c'' & -> & Hc'' & Hle).
      exists r', c''. split; [reflexivity|]. split; [exact Hc''|lia].
    + assert (Hlo' : lo <= index c') by lia.
      destruct (IHh e c' Hc' Hlo') as (r' & c'' & -> & Hc'' & Hle).
      exists r', c''. split; [reflexivity|]. split; [exact Hc''|lia].
Qed.

Lemma invoke_total (next : Value -> Cursor Value -> option (Completion Value Value * Cursor Value)) (i : nat) (d : Value) (c : Cursor Value) :
  (forall v c, sound mws c -> i <= index c ->
     exists r c', next v c = Some (r, c') /\ sound mws c' /\ index c < index c') ->
  StronglySorted lt (invoked (log c)) ->
  Forall (fun x => x < i) (invoked (log c)) ->
  Forall (fun x => x < length mws) (invoked (log c)) ->
  index c = i ->
  exists r c', invoke mws next i d c = Some (r, c') /\ sound mws c' /\ i <= index c'.
Proof.
  intros Hnext Hs Hb Hw Hi. unfold invoke.
  destruct (nth_error mws i) as [m|] eqn:Hm.
  - assert (Hlen : i < length mws) by (apply nth_error_Some; congruence).
    destruct (@interp_total next i i Hnext (m d) (record (Invoked i) c))
      as (r & c' & E & Hc' & Hle).
    + now apply sound_Invoked.
    + simpl. lia.
    + exists r, c'. simpl in Hle. split; [exact E|]. split; [exact Hc'|lia].
  - exists (Abrupt not_a_function), c. split; [reflexivity|]. split; [|lia].
    repeat split; auto. eapply Forall_impl; [|exact Hb]. simpl. intros; lia.
Qed.

Lemma nextHandler_total (fuel : nat) :
  forall v c, sound mws c -> length mws <= fuel + S (index c) ->
    exists r c', nextHandler mws fuel v c = Some (r, c') /\ sound mws c' /\ index c < index c'.
Proof.
  induction fuel as [|fuel IH]; intros v c Hc Hfuel.
  - rewrite nextHandler_last by lia.
    eexists _, _. split; [reflexivity|]. split; [|simpl; lia].
    apply sound_index; auto.
  - destruct (Nat.le_gt_cases (length mws) (S (index c))) as [L|L].
    + rewrite nextHandler_last by lia.
      eexists _, _. split; [reflexivity|]. split; [|simpl; lia].
      apply sound_index; auto.
    + rewrite nextHandler_inside by lia.
      destruct Hc as [[Hs Hb] Hw].
      destruct (@invoke_total (nextHandler mws fuel) (S (index c)) v
                  {| index := S (index c); log := log c |})
        as (r & c' & E & Hc' & Hle); simpl; auto.
      * intros v' c'' Hc'' Hlo. apply IH; auto. lia.
      * eapply Forall_impl; [|exact Hb]. simpl. intros; lia.
      * exists r, c'. split; [exact E|]. split; [exact Hc'|lia].
Qed.

(** [applyMiddleware] returns for every list and every input: the fuel it
    is given is never exhausted. *)
Lemma applyMiddleware_total (d : Value) :
  exists r c, applyMiddleware mws d = Some (r, c) /\ sound mws c.
Proof.
  destruct (@invoke_total (nextHandler mws (length mws)) 0 d {| index := 0; log := [] |})
    as (r & c & E & Hc & _); simpl; auto.
  - intros v c Hc _. apply nextHandler_total; auto. lia.
  - constructor.
  - exists r, c. auto.
Qed.

(** *** Without handlers, a failure ends the run *)

Lemma no_failure_Invoked (l : list (Event Value)) (i : nat) :
  no_failure l -> no_failure (l ++ [Invoked i]).
Proof.
  intros H j e Hin. apply in_app_or in Hin as [Hin|[Hin|[]]].
  - exact (H j e Hin).
  - discriminate.
Qed.

Lemma interp_final (next : Value -> Cursor Value -> option (Completion Value Value * Cursor Value)) (i : nat) :
  (forall v c r c', no_failure (log c) -> next v c = Some (r, c') -> final r c') ->
  forall a, handler_free a ->
  forall c r c', no_failure (log c) -> interp next i a c = Some (r, c') -> final r c'.
Proof.
  intros Hnext a Ha.
  induction Ha as [v|e|v k Hk IH]; intros c r c' Hc E; simpl in E.
  - injection E as <- <-. now left.
  - injection E as <- <-. right. exists i, e, (log c). auto.
  - destruct (next v c) as [[[r1|e1] c1]|] eqn:En; try discriminate.
    + pose proof (Hnext _ _ _ _ Hc En) as [Hn|(j & e & l & Habs & _)];
        [|discriminate].
      exact (IH r1 c1 r c' Hn E).
    + injection E as <- <-. exact (Hnext _ _ _ _ Hc En).
Qed.

Lemma nextHandler_final (fuel : nat) :
  Forall (fun m => forall d, handler_free (m d)) mws ->
  forall v c r c', no_failure (log c) ->
    nextHandler mws fuel v c = Some (r, c') -> final r c'.
Proof.
  intros Hf. induction fuel as [|fuel IH]; intros v c r c' Hc E.
  - simpl in E. destruct (length mws <=? S (index c)); try discriminate.
    injection E as <- <-. now left.
  - destruct (Nat.le_gt_cases (length mws) (S (index c))) as [L|L].
    + rewrite nextHandler_last in E by lia. injection E as <- <-. now left.
    + rewrite nextHandler_inside in E by lia. unfold invoke in E.
      destruct (nth_error mws (S (index c))) as [m|] eqn:Hm.
      * eapply (@interp_final (nextHandler mws fuel)); [exact IH| |  |exact E].
        -- apply nth_error_In in Hm.
           exact (proj1 (Forall_forall _ mws) Hf m Hm v).
        -- simpl. now apply no_failure_Invoked.
      * injection E as <- <-. now left.
Qed.

Lemma final_last (r : Completion Value Value) (c : Cursor Value)
    (i : nat) (e : Exn Value) (l1 l2 : list (Event Value)) :
  final r c -> log c = l1 ++ Failed i e :: l2 -> l2 = [] /\ r = Abrupt e.
Proof.
  intros [Hn|(j & e' & l & -> & El & Hn)] E.
  - exfalso. apply (Hn i e). rewrite E. apply in_elt.
  - rewrite El in E. destruct l2 as [|x l2] using rev_ind.
    + apply (app_inj_tail l l1) in E as [_ E]. injection E as _ ->. auto.
    + clear IHl2. exfalso. apply (Hn i e).
      change (l1 ++ Failed i e :: l2 ++ [x]) with (l1 ++ (Failed i e :: l2) ++ [x]) in E.
      rewrite app_assoc in E. apply app_inj_tail in E as [-> _]. apply in_elt.
Qed.

Lemma failure_is_final (d : Value) (r : Completion Value Value) (c : Cursor Value)
    (i : nat) (e : Exn Value) (l1 l2 : list (Event Value)) :
  Forall (fun m => forall d, handler_free (m d)) mws ->
  applyMiddleware mws d = Some (r, c) ->
  log c = l1 ++ Failed i e :: l2 -> l2 = [] /\ r = Abrupt e.
Proof.
  intros Hf E. apply final_last. revert E. unfold applyMiddleware, invoke.
  destruct (nth_error mws 0) as [m|] eqn:Hm.
  - apply (@interp_final (nextHandler mws (length mws))).
    + now apply nextHandler_final.
    + apply nth_error_In in Hm. exact (proj1 (Forall_forall _ mws) Hf m Hm d).
    + simpl. intros j e' [Hin|[]]. discriminate.
  - intros E. injection E as <- <-. left. intros j e' [].
Qed.

End ChainFacts.

Section ChainClaims.

Variable Value : Type.

(** C1 (what the code does).  With an empty middleware list
    [applyMiddleware] does not return the initial data: it reads
    [this.middleware[0]], which is [undefined], and calling it raises a
    [TypeError]; no middleware is invoked and the cursor stays at 0. *)
Theorem applyMiddleware_empty_list (data : Value) :
  applyMiddleware (@nil (Middleware Value)) data =
  Some (Abrupt not_a_function, {| index := 0; log := [] |}).
Proof. reflexivity. Qed.

(** The pass-through law on a list that is not empty. *)
Lemma passthrough_chain (m : Middleware Value) (ms : list (Middleware Value))
    (data : Value) :
  Forall (@passthrough Value) (m :: ms) ->
  applyMiddleware (m :: ms) data =
  Some (Normal data,
        {| index := length (m :: ms);
           log := map Invoked (seq 0 (length (m :: ms))) |}).
Proof.
  intros Hp. unfold applyMiddleware.
  assert (Hseg : firstn (S (length ms)) (skipn 0 (m :: ms)) = m :: ms)
    by (simpl; now rewrite firstn_all).
  assert (Hf : Forall (@forwards Value) (firstn (S (length ms)) (skipn 0 (m :: ms)))).
  { rewrite Hseg. eapply Forall_impl; [apply passthrough_forwards|exact Hp]. }
  assert (R := @forward_run _ (m :: ms) (length ms) 0 1 data
                 {| index := 0; log := [] |} eq_refl Hf ltac:(simpl; lia)).
  replace (length ms + 1) with (length (m :: ms)) in R by (simpl; lia).
  rewrite R. clear R.
  rewrite nextHandler_last by (simpl; lia).
  rewrite Hseg, (feed_passthrough data Hp). reflexivity.
Qed.

Lemma invoked_Invoked (n j : nat) :
  invoked (map (@Invoked Value) (seq j n)) = seq j n.
Proof.
  revert j. induction n as [|n IH]; intros j; simpl; [|rewrite IH]; reflexivity.
Qed.

Lemma passthrough_invoked (mws : list (Middleware Value)) (data : Value)
    (r : Completion Value Value) (c : Cursor Value) :
  Forall (@passthrough Value) mws ->
  applyMiddleware mws data = Some (r, c) ->
  invoked (log c) = seq 0 (length mws).
Proof.
  intros Hp E. destruct mws as [|m ms].
  - injection E as _ <-. reflexivity.
  - rewrite (passthrough_chain data Hp) in E. injection E as _ <-.
    exact (invoked_Invoked (length (m :: ms)) 0).
Qed.



(** C2 (what the code does).  On a list of N pass-through middleware the
    engine calls each position once, in list order, and leaves the cursor
    at N; it returns the initial data unchanged when N > 0, and raises the
    [TypeError] of the empty list when N = 0. *)
Theorem applyMiddleware_passthrough (mws : list (Middleware Value)) (data : Value) :
  Forall (@passthrough Value) mws ->
  applyMiddleware mws data =
  Some (match mws with
        | [] => Abrupt not_a_function
        | _ :: _ => Normal data
        end,
        {| index := length mws; log := map Invoked (seq 0 (length mws)) |}).
Proof.
  destruct mws as [|m ms]; intros Hp.
  - reflexivity.
  - now apply passthrough_chain.
Qed.

(** What a run does when the middleware at position [k] is reached through
    forwarding middleware and completes without a call of [next]. *)
Lemma short_circuit_run (mws : list (Middleware Value)) (k : nat)
    (m : Middleware Value) (data : Value) :
  nth_error mws k = Some m ->
  Forall (@forwards Value) (firstn k mws) ->
  never_calls_next (m (feed (firstn k mws) data)) ->
  exists c,
    applyMiddleware mws data = Some (completion (m (feed (firstn k mws) data)), c) /\
    index c = k /\ invoked (log c) = seq 0 (S k).
Proof.
  intros Hm Hf Hn.
  assert (Hk : k < length mws) by (apply nth_error_Some; congruence).
  assert (Hinv := invoked_Invoked).
  unfold applyMiddleware. destruct k as [|n].
  - unfold invoke. rewrite Hm. simpl in Hn |- *.
    destruct (m data); simpl in Hn; try contradiction; simpl;
      eexists; (split; [reflexivity|]); auto.
  - assert (R := @forward_run _ mws n 0 (length mws - n) data
                   {| index := 0; log := [] |} eq_refl Hf ltac:(simpl; lia)).
    replace (n + (length mws - n)) with (length mws) in R by lia.
    rewrite R. clear R.
    destruct (length mws - n) as [|fuel] eqn:Efuel; [lia|].
    rewrite nextHandler_inside by (simpl; lia).
    unfold invoke. simpl index. rewrite Hm. simpl skipn. simpl log.
    set (d := feed (firstn (S n) mws) data) in *.
    destruct (m d); simpl in Hn; try contradiction; simpl;
      eexists; (split; [reflexivity|]); simpl; split; auto;
      rewrite ?invoked_app, Hinv; simpl; rewrite ?app_nil_r;
      change (0 :: seq 1 n ++ [S n]) with (seq 0 (S n) ++ [S n]);
      now rewrite <- seq_S.
Qed.

(** C3 (amended).  For every middleware list and every position k, if every
    middleware before k calls its continuation once and returns the result
    unchanged, and the middleware at position k completes without a call of
    its continuation, then the positions executed are exactly 0..k, so none
    after k, and the result of the chain is the completion of the
    middleware at position k. *)
Theorem short_circuit_after_forwarders (mws : list (Middleware Value)) (k : nat)
    (m : Middleware Value) (data : Value) :
  nth_error mws k = Some m ->
  Forall (@forwards Value) (firstn k mws) ->
  (forall d, never_calls_next (m d)) ->
  exists c,
    applyMiddleware mws data = Some (completion (m (feed (firstn k mws) data)), c) /\
    invoked (log c) = seq 0 (S k) /\
    (forall i, In i (invoked (log c)) -> i <= k).
Proof.
  intros Hm Hf Hn.
  destruct (short_circuit_run mws k data Hm Hf (Hn _)) as (c & E & _ & Hl).
  exists c. repeat split; auto.
  intros i Hi. rewrite Hl in Hi. apply in_seq in Hi. lia.
Qed.

End ChainClaims.

(** ** The handle *)

Section HandleFacts.

Variable Value : Type.
Variable URL_new : string -> string -> Completion Value URL.
Variable JSON_stringify : Value -> Completion Value (option string).
Variable node_fetch : URL -> RequestInit -> Completion Value Value.

(** One call, path by path. *)
Lemma perform_spec (c : Call Value) (w : World Value) :
  perform URL_new JSON_stringify node_fetch c w =
  let a := this w in
  let chain := middleware a ++ call_middleware c in
  match prepare URL_new JSON_stringify c a with
  | Abrupt e =>
      (Abrupt e, mkWorld (mkApi (baseUrl a) (auth a) (headers a) chain) (sent w) (runs w))
  | Normal (fullUrl, options) =>
      let a' := mkApi (baseUrl a) (auth a) (headers a ++ getHeaders (auth a)) chain in
      let wire := sent w ++ [(fullUrl, request_init a options)] in
      match node_fetch fullUrl (request_init a options) with
      | Abrupt e => (Normal (Rejected e), mkWorld a' wire (runs w))
      | Normal response =>
          match applyMiddleware chain response with
          | None => (Normal Pending, mkWorld a' wire (runs w))
          | Some (r, cur) => (Normal (settle r), mkWorld a' wire (runs w ++ [log cur]))
          end
      end
  end.
Proof.
  destruct c as [url mw|url payload mw|url payload mw|url payload mw];
    unfold perform, get, put, post, delete, prepare, request_init; simpl;
    unfold bind, middleware_push, lift; simpl;
    try (destruct (JSON_stringify payload) as [json|e]; [|reflexivity]);
    unfold fetch, bind, self, lift, headers_push, transport; simpl;
    (destruct (URL_new url (baseUrl (this w))) as [fullUrl|e]; [|reflexivity]);
    simpl;
    (destruct (node_fetch fullUrl _) as [response|e]; [|reflexivity]);
    unfold promise_then, runChain; simpl;
    (destruct (applyMiddleware _ response) as [[[r|e] cur]|]; reflexivity).
Qed.

Lemma perform_frame (c : Call Value) (w : World Value) :
  let w' := snd (perform URL_new JSON_stringify node_fetch c w) in
  baseUrl (this w') = baseUrl (this w) /\
  auth (this w') = auth (this w) /\
  middleware (this w') = middleware (this w) ++ call_middleware c /\
  headers (this w') =
    headers (this w) ++
    (if constructed URL_new JSON_stringify c (this w)
     then getHeaders (auth (this w)) else []).
Proof.
  rewrite perform_spec. unfold constructed. simpl.
  destruct (prepare URL_new JSON_stringify c (this w)) as [[fullUrl options]|e]; simpl.
  - destruct (node_fetch fullUrl _) as [response|e]; simpl; auto.
    destruct (applyMiddleware _ response) as [[r cur]|]; simpl; auto.
  - rewrite app_nil_r. auto.
Qed.

Lemma prepare_baseUrl (c : Call Value) (a a' : Api Value) :
  baseUrl a' = baseUrl a ->
  prepare URL_new JSON_stringify c a' = prepare URL_new JSON_stringify c a.
Proof. intros E. unfold prepare. now rewrite E. Qed.

(** A call that gets a response runs the chain over the handle's list
    followed by its own middleware, and settles with what the chain gave. *)
Lemma perform_chain (c : Call Value) (w : World Value)
    (fullUrl : URL) (options : Options) (response : Value) :
  prepare URL_new JSON_stringify c (this w) = Normal (fullUrl, options) ->
  node_fetch fullUrl (request_init (this w) options) = Normal response ->
  exists r cur,
    applyMiddleware (middleware (this w) ++ call_middleware c) response = Some (r, cur) /\
    sound (middleware (this w) ++ call_middleware c) cur /\
    fst (perform URL_new JSON_stringify node_fetch c w) = Normal (settle r) /\
    runs (snd (perform URL_new JSON_stringify node_fetch c w)) = runs w ++ [log cur].
Proof.
  intros Hp Hr. rewrite perform_spec. simpl. rewrite Hp, Hr.
  destruct (applyMiddleware_total (middleware (this w) ++ call_middleware c) response)
    as (r & cur & E & Hs).
  exists r, cur. rewrite E. auto.
Qed.

Lemma perform_all_frame (cs : list (Call Value)) :
  forall w : World Value,
    let w' := perform_all URL_new JSON_stringify node_fetch cs w in
    baseUrl (this w') = baseUrl (this w) /\
    auth (this w') = auth (this w) /\
    (exists rest, middleware (this w') = middleware (this w) ++ rest) /\
    headers (this w') =
      headers (this w) ++
      concat (repeat (getHeaders (auth (this w)))
                (length (filter (fun c => constructed URL_new JSON_stringify c (this w)) cs))).
Proof.
  unfold perform_all. induction cs as [|c cs IH]; intros w.
  - simpl. repeat split; auto.
    + exists []. now rewrite app_nil_r.
    + now rewrite app_nil_r.
  - destruct (perform_frame c w) as (Hb & Ha & Hm & Hh).
    cbn [fold_left]. cbv zeta in *.
    set (w1 := snd (perform URL_new JSON_stringify node_fetch c w)) in *.
    destruct (IH w1) as (Hb' & Ha' & (rest & Hm') & Hh').
    rewrite Hb', Ha', Hm', Hh', Hb, Ha, Hm, Hh. repeat split; auto.
    + exists (call_middleware c ++ rest). now rewrite app_assoc.
    + rewrite <- app_assoc. f_equal.
      rewrite (filter_ext (fun c0 => constructed URL_new JSON_stringify c0 (this w1))
                          (fun c0 => constructed URL_new JSON_stringify c0 (this w))).
      * cbn [filter]. destruct (constructed URL_new JSON_stringify c (this w)); reflexivity.
      * intros c0. unfold constructed. now rewrite (prepare_baseUrl c0 _ _ Hb).
Qed.


(** A call on a handle without middleware, made without middleware, is
    rejected with the [TypeError] of the empty list although the transport
    answered. *)
Lemma call_without_middleware_rejects (c : Call Value) (w : World Value)
    (fullUrl : URL) (options : Options) (response : Value) :
  prepare URL_new JSON_stringify c (this w) = Normal (fullUrl, options) ->
  node_fetch fullUrl (request_init (this w) options) = Normal response ->
  middleware (this w) = [] -> call_middleware c = [] ->
  fst (perform URL_new JSON_stringify node_fetch c w) =
  Normal (Rejected not_a_function).
Proof.
  intros Hp Hr Hm Hc. rewrite perform_spec. simpl. rewrite Hp, Hr, Hm, Hc.
  reflexivity.
Qed.

(** C5.  Every verb call appends its call-level middleware to the
    handle's own list, whatever becomes of the call, and no later call
    takes anything away from that list; so when a second call follows, the
    list it leaves on the handle, which is the chain it runs when it gets a
    response, is the original list, then the first call's middleware, then
    its own. *)
Theorem call_middleware_stays (c1 c2 : Call Value) (w : World Value) :
  let w1 := snd (perform URL_new JSON_stringify node_fetch c1 w) in
  let w2 := snd (perform URL_new JSON_stringify node_fetch c2 w1) in
  let chain2 := (middleware (this w) ++ call_middleware c1) ++ call_middleware c2 in
  middleware (this w1) = middleware (this w) ++ call_middleware c1 /\
  (forall cs, exists rest,
     middleware (this (perform_all URL_new JSON_stringify node_fetch cs w1)) =
     (middleware (this w) ++ call_middleware c1) ++ rest) /\
  middleware (this w2) = chain2 /\
  incl (call_middleware c1) chain2 /\
  (forall fullUrl options response,
     prepare URL_new JSON_stringify c2 (this w1) = Normal (fullUrl, options) ->
     node_fetch fullUrl (request_init (this w1) options) = Normal response ->
     exists r cur,
       applyMiddleware chain2 response = Some (r, cur) /\
       fst (perform URL_new JSON_stringify node_fetch c2 w1) = Normal (settle r) /\
       runs w2 = runs w1 ++ [log cur]).
Proof.
  intros w1 w2 chain2.
  destruct (perform_frame c1 w) as (_ & _ & Hm1 & _). fold w1 in Hm1.
  destruct (perform_frame c2 w1) as (_ & _ & Hm2 & _). fold w2 in Hm2.
  split; [exact Hm1|]. split.
  { intros cs. destruct (perform_all_frame cs w1) as (_ & _ & (rest & Hm) & _).
    exists rest. now rewrite Hm, Hm1. }
  split; [now rewrite Hm2, Hm1|]. split.
  { intros m Hin. unfold chain2. apply in_or_app. left. apply in_or_app. now right. }
  intros fullUrl options response Hp Hr.
  destruct (perform_chain c2 w1 Hp Hr) as (r & cur & E & _ & Hres & Hruns).
  rewrite Hm1 in E. exists r, cur. auto.
Qed.

(** C6 (what the code does).  For every call whose request is constructed,
    exactly one request goes to the transport, and the value under
    [headers] in it is the number [Array.prototype.push] returned, the
    length of the handle-level header array after the auth entries were
    appended to it; it is not the merged header set. *)
Theorem transport_headers_is_push_result (c : Call Value) (w : World Value)
    (fullUrl : URL) (options : Options) :
  prepare URL_new JSON_stringify c (this w) = Normal (fullUrl, options) ->
  let merged := headers (this w) ++ getHeaders (auth (this w)) in
  sent (snd (perform URL_new JSON_stringify node_fetch c w)) =
    sent w ++ [(fullUrl, {| init_headers := HNumber (length merged);
                            init_options := options |})] /\
  HNumber (length merged) <> HEntries merged.
Proof.
  intros Hp merged. split; [|discriminate].
  rewrite perform_spec. simpl. rewrite Hp. unfold request_init. fold merged.
  destruct (node_fetch fullUrl _) as [response|e]; [|reflexivity].
  destruct (applyMiddleware _ response) as [[r cur]|]; reflexivity.
Qed.


(** C8 (amended).  For every call whose request is constructed, one
    request goes to the transport and none is repeated.  If the transport
    fails, the call is a promise rejected with that failure and no
    middleware runs.  If the chain run completes with a failure, the call
    is a promise rejected with that failure.  If no middleware of the chain
    catches failures of its continuation, then a failure raised by a
    middleware is the last event of the run, so no middleware runs after
    it, and the call is a promise rejected with that failure. *)
Theorem failures_reach_the_caller (c : Call Value) (w : World Value)
    (fullUrl : URL) (options : Options) :
  prepare URL_new JSON_stringify c (this w) = Normal (fullUrl, options) ->
  let init := request_init (this w) options in
  let chain := middleware (this w) ++ call_middleware c in
  let result := perform URL_new JSON_stringify node_fetch c w in
  sent (snd result) = sent w ++ [(fullUrl, init)] /\
  (forall e,
     node_fetch fullUrl init = Abrupt e ->
     fst result = Normal (Rejected e) /\ runs (snd result) = runs w) /\
  (forall response,
     node_fetch fullUrl init = Normal response ->
     exists r cur,
       applyMiddleware chain response = Some (r, cur) /\
       fst result = Normal (settle r) /\
       runs (snd result) = runs w ++ [log cur] /\
       (forall e, r = Abrupt e -> fst result = Normal (Rejected e)) /\
       (Forall (fun m => forall d, handler_free (m d)) chain ->
        forall i e l1 l2,
          log cur = l1 ++ Failed i e :: l2 ->
          l2 = [] /\ fst result = Normal (Rejected e))).
Proof.
  intros Hp init chain result. split; [|split].
  - unfold result. rewrite perform_spec. simpl. rewrite Hp. fold init.
    destruct (node_fetch fullUrl init) as [response|e]; [|reflexivity].
    destruct (applyMiddleware _ response) as [[r cur]|]; reflexivity.
  - intros e He. unfold result. rewrite perform_spec. simpl.
    rewrite Hp. fold init. rewrite He. auto.
  - intros response Hr.
    destruct (perform_chain c w Hp Hr) as (r & cur & E & _ & Hres & Hruns).
    exists r, cur. split; [exact E|]. split; [exact Hres|]. split; [exact Hruns|].
    split.
    + intros e ->. exact Hres.
    + intros Hfree i e l1 l2 Hlog.
      destruct (@failure_is_final _ _ _ _ _ i e l1 l2 Hfree E Hlog) as [-> ->].
      split; [reflexivity|exact Hres].
Qed.

(** C9 (amended).  A verb call whose request is constructed, that is, whose
    payload is serialised and whose URL is resolved without a throw, appends
    the auth headers to the handle's header array, and a call that throws
    before that leaves the array as it was; nothing is ever removed, so
    after any sequence of calls the array is the original headers followed
    by one copy of the auth headers per constructed call: n copies after n
    such calls. *)
Theorem auth_headers_accumulate (cs : list (Call Value)) (w : World Value) :
  (forall c,
     headers (this (snd (perform URL_new JSON_stringify node_fetch c w))) =
     headers (this w) ++
     (if constructed URL_new JSON_stringify c (this w)
      then getHeaders (auth (this w)) else [])) /\
  headers (this (perform_all URL_new JSON_stringify node_fetch cs w)) =
    headers (this w) ++
    concat (repeat (getHeaders (auth (this w)))
              (length (filter (fun c => constructed URL_new JSON_stringify c (this w)) cs))) /\
  (forallb (fun c => constructed URL_new JSON_stringify c (this w)) cs = true ->
   headers (this (perform_all URL_new JSON_stringify node_fetch cs w)) =
     headers (this w) ++ concat (repeat (getHeaders (auth (this w))) (length cs))).
Proof.
  destruct (perform_all_frame cs w) as (_ & _ & _ & Hh).
  split; [|split].
  - intros c. now destruct (perform_frame c w) as (_ & _ & _ & H).
  - exact Hh.
  - intros Hall. rewrite Hh. do 3 f_equal.
    clear Hh. induction cs as [|c cs IH]; [reflexivity|].
    simpl in Hall |- *. apply andb_prop in Hall as [-> Hall].
    simpl. now rewrite IH.
Qed.

Lemma property_of_entry (params : list (string * string)) (k v : string) :
  NoDup (map fst params) -> In (k, v) params -> property params k = v.
Proof.
  unfold property.
  induction params as [|[k0 v0] params IH]; intros Hnd Hin; [contradiction|].
  simpl in *. inversion Hnd as [|? ? Hk0 Hnd']; subst.
  destruct Hin as [E|Hin].
  - injection E as -> ->. now rewrite String.eqb_refl.
  - destruct (String.eqb_spec k0 k) as [->|Hne].
    + exfalso. apply Hk0. now apply (in_map fst) in Hin.
    + now apply IH.
Qed.

Lemma append_entries (all params : list (string * string)) :
  (forall k v, In (k, v) params -> property all k = v) ->
  forall u,
    fold_left (fun urlObject param =>
                 searchParams_append urlObject param (property all param))
      (map fst params) u =
    {| href := href u; searchParams := searchParams u ++ params |}.
Proof.
  induction params as [|[k v] params IH]; intros Hall u; simpl.
  - rewrite app_nil_r. now destruct u.
  - rewrite IH by (intros; apply Hall; now right).
    rewrite (Hall k v) by now left.
    unfold searchParams_append. simpl. now rewrite <- app_assoc.
Qed.

(** C10.  For every relative url and every params object, given as its
    properties in enumeration order, [constructUrlWithQueryParams] returns
    what [new URL(url, baseUrl)] resolved with every key/value pair of
    params appended to its search parameters in that order, throws what
    [new URL] throws when it does not resolve, and leaves the handle as it
    was. *)
Theorem constructUrlWithQueryParams_appends (url : string)
    (params : list (string * string)) (w : World Value) :
  NoDup (map fst params) ->
  constructUrlWithQueryParams URL_new url params w =
  (match URL_new url (baseUrl (this w)) with
   | Normal urlObject =>
       Normal {| href := href urlObject;
                 searchParams := searchParams urlObject ++ params |}
   | Abrupt e => Abrupt e
   end, w).
Proof.
  intros Hnd. unfold constructUrlWithQueryParams, bind, self, lift, ret.
  destruct (URL_new url (baseUrl (this w))) as [urlObject|e]; [|reflexivity].
  rewrite append_entries; [reflexivity|].
  intros k v. now apply property_of_entry.
Qed.

End HandleFacts.

(** ** The statements at concrete inputs *)

Lemma applyMiddleware_passthrough_witness :
  applyMiddleware [Demo.forward; Demo.forward; Demo.forward] 5 =
    Some (Normal 5, {| index := 3; log := [Invoked 0; Invoked 1; Invoked 2] |}) /\
  applyMiddleware (@nil (Middleware nat)) 5 =
    Some (Abrupt not_a_function, {| index := 0; log := [] |}).
Proof.
  split.
  - apply (@applyMiddleware_passthrough nat [Demo.forward; Demo.forward; Demo.forward] 5).
    repeat constructor; intros d; exists (@Return nat); split; reflexivity.
  - apply (@applyMiddleware_passthrough nat [] 5). constructor.
Defined.

Lemma short_circuit_after_forwarders_witness :
  exists c,
    applyMiddleware [Demo.bump; Demo.forward; Demo.stop 10; Demo.stop 20] 5 =
      Some (Normal 10, c) /\
    invoked (log c) = [0; 1; 2] /\
    (forall i, In i (invoked (log c)) -> i <= 2).
Proof.
  apply (@short_circuit_after_forwarders nat
           [Demo.bump; Demo.forward; Demo.stop 10; Demo.stop 20] 2 (Demo.stop 10) 5).
  - reflexivity.
  - repeat constructor; intros d; eexists _, (@Return nat); split; reflexivity.
  - intros d. exact I.
Defined.

(** C3 (as stated) fails: in [twice, stop 10, stop 20] the middleware at
    position 1 never calls its continuation and returns 10, yet position 2
    is executed and the chain gives 20, because the first middleware calls
    its continuation a second time. *)
Lemma short_circuit_counterexample :
  nth_error [Demo.twice; Demo.stop 10; Demo.stop 20] 1 = Some (fun _ => Return 10) /\
  applyMiddleware [Demo.twice; Demo.stop 10; Demo.stop 20] 5 =
    Some (Normal 20, {| index := 2; log := [Invoked 0; Invoked 1; Invoked 2] |}) /\
  ~ (forall (mws : list (Middleware nat)) (k : nat) (m : Middleware nat) (data : nat),
       nth_error mws k = Some m ->
       (forall d, never_calls_next (m d)) ->
       exists d c,
         applyMiddleware mws data = Some (completion (m d), c) /\
         (forall i, In i (invoked (log c)) -> i <= k)).
Proof.
  split; [reflexivity|]. split; [reflexivity|].
  intros H.
  destruct (H [Demo.twice; Demo.stop 10; Demo.stop 20] 1 (Demo.stop 10) 5
              eq_refl (fun _ => I)) as (d & c & E & _).
  vm_compute in E. discriminate E.
Qed.


Lemma call_middleware_stays_witness :
  middleware (this (snd (Demo.perform (CallGet "/items" [Demo.stop 1]) Demo.service))) =
    [Demo.forward; Demo.bump; Demo.stop 1] /\
  exists r cur,
    applyMiddleware [Demo.forward; Demo.bump; Demo.stop 1; Demo.stop 2] 200 =
      Some (r, cur) /\
    fst (Demo.perform (CallPost "/items" 7 [Demo.stop 2])
           (snd (Demo.perform (CallGet "/items" [Demo.stop 1]) Demo.service))) =
      Normal (settle r).
Proof.
  destruct (@call_middleware_stays nat Demo.URL_new Demo.JSON_stringify Demo.node_fetch
              (CallGet "/items" [Demo.stop 1]) (CallPost "/items" 7 [Demo.stop 2])
              Demo.service)
    as (H1 & _ & _ & _ & H2).
  split; [exact H1|].
  destruct (H2 Demo.items {| body := Some "{}"; method := POST |} 200 eq_refl eq_refl)
    as (r & cur & E & Hres & _).
  exists r, cur. split; [exact E|exact Hres].
Defined.

Lemma transport_headers_is_push_result_witness :
  sent (snd (Demo.perform (CallGet "/items" []) Demo.service)) =
    [(Demo.items, {| init_headers := HNumber 2; init_options := Demo.get_options |})] /\
  HNumber 2 <>
  HEntries [["Accept"; "application/json"]; ["Authorization"; "Bearer abc"]].
Proof.
  exact (@transport_headers_is_push_result nat
           Demo.URL_new Demo.JSON_stringify Demo.node_fetch
           (CallGet "/items" []) Demo.service Demo.items Demo.get_options eq_refl).
Defined.



Lemma failures_reach_the_caller_witness :
  (fst (Demo.perform (CallGet "/down" []) Demo.service) = Normal (Rejected (Raised 503)) /\
   runs (snd (Demo.perform (CallGet "/down" []) Demo.service)) = []) /\
  exists r cur,
    applyMiddleware [Demo.forward; Demo.boom; Demo.stop 20] 200 = Some (r, cur) /\
    (forall i e l1 l2,
       log cur = l1 ++ Failed i e :: l2 ->
       l2 = [] /\
       fst (Demo.perform (CallGet "/items" [Demo.boom; Demo.stop 20])
              (Demo.handle "https://api.example.com" [Demo.forward])) =
       Normal (Rejected e)).
Proof.
  split.
  - destruct (@failures_reach_the_caller nat
                Demo.URL_new Demo.JSON_stringify Demo.node_fetch
                (CallGet "/down" []) Demo.service Demo.down Demo.get_options eq_refl)
      as (_ & Hfail & _).
    exact (Hfail (Raised 503) eq_refl).
  - destruct (@failures_reach_the_caller nat
                Demo.URL_new Demo.JSON_stringify Demo.node_fetch
                (CallGet "/items" [Demo.boom; Demo.stop 20])
                (Demo.handle "https://api.example.com" [Demo.forward])
                Demo.items Demo.get_options eq_refl)
      as (_ & _ & Hchain).
    destruct (Hchain 200 eq_refl) as (r & cur & E & _ & _ & _ & Hfree).
    exists r, cur. split; [exact E|].
    apply Hfree. repeat constructor.
Defined.

(** C8 (as stated) fails: in [rescue, boom, stop 20] the middleware at
    position 1 throws, the one at position 0 catches that and calls its
    continuation again, so position 2 runs after the failure and the call
    is a resolved promise. *)
Lemma failures_reach_the_caller_counterexample :
  Demo.perform (CallGet "/items" []) Demo.guarded =
  (Normal (Resolved 20),
   mkWorld
     (mkApi "https://api.example.com" Demo.bearer
        [["Accept"; "application/json"]; ["Authorization"; "Bearer abc"]]
        [Demo.rescue; Demo.boom; Demo.stop 20])
     [(Demo.items, {| init_headers := HNumber 2; init_options := Demo.get_options |})]
     [[Invoked 0; Invoked 1; Failed 1 (Raised 1); Invoked 2]]).
Proof. reflexivity. Qed.

Lemma auth_headers_accumulate_witness :
  headers (this (Demo.perform_all
                   [CallGet "/items" []; CallPost "/items" 1 []] Demo.service)) =
  [["Accept"; "application/json"];
   ["Authorization"; "Bearer abc"]; ["Authorization"; "Bearer abc"]].
Proof.
  destruct (@auth_headers_accumulate nat
              Demo.URL_new Demo.JSON_stringify Demo.node_fetch
              [CallGet "/items" []; CallPost "/items" 1 []] Demo.service)
    as (_ & _ & H).
  exact (H eq_refl).
Defined.

(** C9 (as stated) fails: on a handle whose base URL is not a URL, a call
    throws in [new URL] before it reaches the header array, which is after
    the call what it was before, without a copy of the auth headers. *)
Lemma auth_headers_accumulate_counterexample :
  fst (Demo.perform (CallGet "/items" []) Demo.misconfigured) =
    Abrupt (TypeError "Invalid URL") /\
  headers (this (Demo.perform_all [CallGet "/items" []] Demo.misconfigured)) =
    [["Accept"; "application/json"]] /\
  headers (this (Demo.perform_all [CallGet "/items" []] Demo.misconfigured)) <>
    headers (this Demo.misconfigured) ++
    concat (repeat (getHeaders (auth (this Demo.misconfigured))) 1).
Proof.
  split; [reflexivity|]. split; [reflexivity|]. discriminate.
Qed.

Lemma constructUrlWithQueryParams_appends_witness :
  constructUrlWithQueryParams Demo.URL_new "/abc/1"
    [("name", "John"); ("age", "12")] Demo.service =
  (Normal {| href := "https://api.example.com/abc/1";
             searchParams := [("name", "John"); ("age", "12")] |},
   Demo.service).
Proof.
  apply (@constructUrlWithQueryParams_appends nat Demo.URL_new "/abc/1"
           [("name", "John"); ("age", "12")] Demo.service).
  repeat constructor; simpl; intuition discriminate.
Defined.

(** ** More about the chain engine *)

Section ChainExtras.

Variable Value : Type.
Variable mws : list (Middleware Value).

(** What one step leaves behind: the log only grows, and a failure it
    completes with was thrown by a middleware. *)
Lemma interp_trail
    (next : Value -> Cursor Value -> option (Completion Value Value * Cursor Value))
    (i : nat) :
  (forall v c r c', next v c = Some (r, c') ->
     (exists l, log c' = log c ++ l) /\
     (forall e, r = Abrupt e -> exists j, In (Failed j e) (log c'))) ->
  forall a c r c', interp next i a c = Some (r, c') ->
    (exists l, log c' = log c ++ l) /\
    (forall e, r = Abrupt e -> exists j, In (Failed j e) (log c')).
Proof.
  intros Hnext.
  assert (Hseq : forall (c c1 c' : Cursor Value) (r : Completion Value Value),
             (exists l, log c1 = log c ++ l) ->
             ((exists l, log c' = log c1 ++ l) /\
              (forall e, r = Abrupt e -> exists j, In (Failed j e) (log c'))) ->
             (exists l, log c' = log c ++ l) /\
             (forall e, r = Abrupt e -> exists j, In (Failed j e) (log c'))).
  { intros c c1 c' r (l1 & E1) [(l2 & E2) Hab]. split; [|exact Hab].
    exists (l1 ++ l2). now rewrite E2, E1, app_assoc. }
  induction a as [v|e|v k IH|v k IHk h IHh]; intros c r c' E; simpl in E.
  - injection E as <- <-. split; [exists []; now rewrite app_nil_r|discriminate].
  - injection E as <- <-. split; [now exists [Failed i e]|].
    intros e' [= <-]. exists i. simpl. apply in_or_app. right. now left.
  - destruct (next v c) as [[[r1|e1] c1]|] eqn:En; try discriminate.
    + destruct (Hnext _ _ _ _ En) as [Hl _].
      exact (Hseq c c1 c' r Hl (IH r1 c1 r c' E)).
    + injection E as <- <-. exact (Hnext _ _ _ _ En).
  - destruct (next v c) as [[[r1|e1] c1]|] eqn:En; try discriminate.
    + destruct (Hnext _ _ _ _ En) as [Hl _].
      exact (Hseq c c1 c' r Hl (IHk r1 c1 r c' E)).
    + destruct (Hnext _ _ _ _ En) as [Hl _].
      exact (Hseq c c1 c' r Hl (IHh e1 c1 r c' E)).
Qed.

Lemma nextHandler_trail (fuel : nat) :
  forall v c r c', nextHandler mws fuel v c = Some (r, c') ->
    (exists l, log c' = log c ++ l) /\
    (forall e, r = Abrupt e -> exists j, In (Failed j e) (log c')).
Proof.
  induction fuel as [|fuel IH]; intros v c r c' E.
  - simpl in E. destruct (length mws <=? S (index c)); try discriminate.
    injection E as <- <-. split; [exists []; now rewrite app_nil_r|discriminate].
  - destruct (Nat.le_gt_cases (length mws) (S (index c))) as [L|L].
    + rewrite nextHandler_last in E by lia. injection E as <- <-.
      split; [exists []; now rewrite app_nil_r|discriminate].
    + rewrite nextHandler_inside in E by lia. unfold invoke in E.
      destruct (nth_error mws (S (index c))) as [m|] eqn:Hm.
      2:{ apply nth_error_None in Hm. lia. }
      destruct (@interp_trail (nextHandler mws fuel) (S (index c)) IH _ _ _ _ E)
        as [(l & El) Hab].
      split; [|exact Hab]. exists (Invoked (S (index c)) :: l).
      rewrite El. simpl. now rewrite <- app_assoc.
Qed.

(** A run over a list that is not empty starts with the first middleware,
    and a failure it ends with was thrown by a middleware. *)
Lemma applyMiddleware_trail (d : Value) (r : Completion Value Value) (c : Cursor Value) :
  mws <> [] ->
  applyMiddleware mws d = Some (r, c) ->
  (exists l, log c = Invoked 0 :: l) /\
  (forall e, r = Abrupt e -> exists j, In (Failed j e) (log c)).
Proof.
  intros Hne E. unfold applyMiddleware, invoke in E.
  destruct mws as [|m ms] eqn:Em; [contradiction|]. rewrite <- Em in *.
  replace (nth_error mws 0) with (Some m) in E by (rewrite Em; reflexivity).
  destruct (@interp_trail (nextHandler mws (length mws)) 0
              (nextHandler_trail (length mws)) _ _ _ _ E) as [(l & El) Hab].
  split; [|exact Hab]. exists l. exact El.
Qed.

Lemma sorted_lt_NoDup (l : list nat) : StronglySorted lt l -> NoDup l.
Proof.
  induction 1 as [|x l Hs IH Hx]; constructor; auto.
  intros Hin. apply (proj1 (Forall_forall _ l) Hx) in Hin. lia.
Qed.

(** X1.  Whatever the middleware do with their continuation, a run of
    [applyMiddleware] ends; the positions it calls are strictly increasing
    positions of the list, so no middleware is called twice and at most as
    many calls are made as the list has entries; and on a list that is not
    empty the first call is the one of position 0. *)
Theorem chain_run_ends_in_order (d : Value) :
  exists r c,
    applyMiddleware mws d = Some (r, c) /\
    StronglySorted lt (invoked (log c)) /\
    Forall (fun i => i < length mws) (invoked (log c)) /\
    NoDup (invoked (log c)) /\
    length (invoked (log c)) <= length mws /\
    (mws <> [] -> exists rest, invoked (log c) = 0 :: rest).
Proof.
  destruct (applyMiddleware_total mws d) as (r & c & E & [[Hs _] Hw]).
  exists r, c. split; [exact E|]. split; [exact Hs|]. split; [exact Hw|].
  pose proof (sorted_lt_NoDup Hs) as Hnd. split; [exact Hnd|]. split.
  - assert (Hincl : incl (invoked (log c)) (seq 0 (length mws))).
    { intros i Hi. apply in_seq. apply (proj1 (Forall_forall _ _) Hw) in Hi. lia. }
    pose proof (NoDup_incl_length Hnd Hincl) as Hlen.
    now rewrite length_seq in Hlen.
  - intros Hne. destruct (@applyMiddleware_trail d r c Hne E) as [(l & El) _].
    exists (invoked l). now rewrite El.
Qed.

(** X2.  On a list that is not empty the engine raises nothing of its own:
    a failure a run completes with was thrown by the body of one of the
    middleware during that run. *)
Theorem chain_failures_come_from_middleware (d : Value)
    (r : Completion Value Value) (c : Cursor Value) (e : Exn Value) :
  mws <> [] ->
  applyMiddleware mws d = Some (r, c) ->
  r = Abrupt e ->
  exists i, In (Failed i e) (log c).
Proof.
  intros Hne E Hr.
  destruct (@applyMiddleware_trail d r c Hne E) as [_ Hab].
  exact (Hab e Hr).
Qed.

End ChainExtras.

Section ChainComposition.

Variable Value : Type.

(** X3.  On a list, not empty, of middleware that each call their
    continuation once and return its result unchanged, the data is handed
    from one to the next as each passes it on, every position is called
    once in list order, and the run returns what the last one passed to its
    continuation. *)
Theorem forwarding_chain_composes (mws : list (Middleware Value)) (data : Value) :
  mws <> [] ->
  Forall (@forwards Value) mws ->
  applyMiddleware mws data =
  Some (Normal (feed mws data),
        {| index := length mws; log := map Invoked (seq 0 (length mws)) |}).
Proof.
  intros Hne Hf. destruct mws as [|m ms]; [contradiction|].
  assert (Hseg : firstn (S (length ms)) (skipn 0 (m :: ms)) = m :: ms)
    by (simpl; now rewrite firstn_all).
  assert (Hf' : Forall (@forwards Value) (firstn (S (length ms)) (skipn 0 (m :: ms))))
    by now rewrite Hseg.
  unfold applyMiddleware.
  assert (R := @forward_run _ (m :: ms) (length ms) 0 1 data
                 {| index := 0; log := [] |} eq_refl Hf' ltac:(simpl; lia)).
  replace (length ms + 1) with (length (m :: ms)) in R by (simpl; lia).
  rewrite R, Hseg. clear R.
  rewrite nextHandler_last by (simpl; lia). reflexivity.
Qed.

Lemma wrapping_run (mws : list (Middleware Value)) (n : nat) :
  forall (j fuel : nat) (d : Value) (c : Cursor Value)
         (fgs : list ((Value -> Value) * (Value -> Value))),
    index c = j -> j + S n = length mws -> n <= fuel ->
    Forall2 (fun m fg => wraps (fst fg) (snd fg) m) (skipn j mws) fgs ->
    invoke mws (nextHandler mws fuel) j d c =
    Some (Normal (onion fgs d),
          {| index := length mws; log := log c ++ map Invoked (seq j (S n)) |}).
Proof.
  induction n as [|n IH]; intros j fuel d c fgs Hc Hlen Hfuel Hw;
    (destruct (nth_error mws j) as [m|] eqn:Hm;
     [|apply nth_error_None in Hm; lia]);
    rewrite (skipn_nth_error _ _ Hm) in Hw;
    inversion Hw as [|m' [f g] ms' fgs' Hmw Hrest0]; subst; simpl in Hmw;
    pose proof (Hrest0 : Forall2 (fun m fg => wraps (fst fg) (snd fg) m)
                           (skipn (S (index c)) mws) fgs') as Hrest;
    clear Hrest0;
    destruct (Hmw d) as (k & Hd & Hk);
    unfold invoke; rewrite Hm, Hd; simpl interp.
  - rewrite nextHandler_last by (simpl; lia).
    rewrite Hk. simpl.
    assert (Hnil : skipn (S (index c)) mws = []) by (apply skipn_all2; lia).
    rewrite Hnil in Hrest. inversion Hrest; subst. simpl.
    do 3 f_equal. lia.
  - destruct fuel as [|fuel]; [lia|].
    rewrite nextHandler_inside by (simpl; lia).
    unfold record; simpl index; simpl log.
    rewrite (IH (S (index c)) fuel (f d) _ fgs') by (simpl; auto; lia).
    rewrite Hk. simpl. rewrite <- app_assoc. reflexivity.
Qed.

(** X4.  On a list, not empty, of middleware of the form
    [(data, next) => g(next(f(data)))], the inbound functions are applied in
    list order and the outbound ones in reverse list order: the run returns
    [g1 (g2 (... gn (fn (... f2 (f1 data)))))], after calling every position
    once in list order. *)
Theorem wrapping_chain_composes (mws : list (Middleware Value))
    (fgs : list ((Value -> Value) * (Value -> Value))) (data : Value) :
  mws <> [] ->
  Forall2 (fun m fg => wraps (fst fg) (snd fg) m) mws fgs ->
  applyMiddleware mws data =
  Some (Normal (onion fgs data),
        {| index := length mws; log := map Invoked (seq 0 (length mws)) |}).
Proof.
  intros Hne Hw. destruct mws as [|m ms] eqn:Em; [contradiction|].
  rewrite <- Em in *. unfold applyMiddleware.
  assert (Hlen : length mws = S (length ms)) by now rewrite Em.
  rewrite (@wrapping_run mws (length ms) 0 (length mws) data
             {| index := 0; log := [] |} fgs eq_refl
             ltac:(simpl; lia) ltac:(lia) Hw).
  rewrite Hlen. reflexivity.
Qed.

End ChainComposition.

(** ** More about the handle *)

Section HandleExtras.

Variable Value : Type.
Variable URL_new : string -> string -> Completion Value URL.
Variable JSON_stringify : Value -> Completion Value (option string).
Variable node_fetch : URL -> RequestInit -> Completion Value Value.

(** X5.  A verb call whose request cannot be constructed, because
    [JSON.stringify] or [new URL] throws, throws that error synchronously
    instead of returning a promise; it sends nothing, runs no chain and
    leaves the headers alone, but its call-level middleware is already on
    the handle's list and stays there. *)
Theorem failed_construction_keeps_middleware (c : Call Value) (w : World Value)
    (e : Exn Value) :
  prepare URL_new JSON_stringify c (this w) = Abrupt e ->
  perform URL_new JSON_stringify node_fetch c w =
  (Abrupt e,
   mkWorld (mkApi (baseUrl (this w)) (auth (this w)) (headers (this w))
              (middleware (this w) ++ call_middleware c))
     (sent w) (runs w)).
Proof. intros Hp. rewrite perform_spec. simpl. now rewrite Hp. Qed.

(** X6.  On a handle constructed without middleware, a verb call made
    without middleware still sends its request and appends the auth headers,
    and when the transport answers, the promise is rejected with the
    [TypeError] of the empty chain: the response never reaches the caller. *)
Theorem handle_without_middleware_rejects (base : string) (a : Auth)
    (hs : list (list string)) (c : Call Value)
    (wire : list (URL * RequestInit)) (past : list (list (Event Value)))
    (fullUrl : URL) (options : Options) (response : Value) :
  let w := mkWorld (constructor base a hs []) wire past in
  call_middleware c = [] ->
  prepare URL_new JSON_stringify c (this w) = Normal (fullUrl, options) ->
  node_fetch fullUrl (request_init (this w) options) = Normal response ->
  perform URL_new JSON_stringify node_fetch c w =
  (Normal (Rejected not_a_function),
   mkWorld (mkApi base a (hs ++ getHeaders a) [])
     (wire ++ [(fullUrl, request_init (this w) options)])
     (past ++ [[]])).
Proof.
  intros w Hc Hp Hr. rewrite perform_spec. cbv zeta. rewrite Hp, Hr, Hc.
  reflexivity.
Qed.

Lemma perform_sent (c : Call Value) (w : World Value) :
  sent (snd (perform URL_new JSON_stringify node_fetch c w)) =
  sent w ++
  match prepare URL_new JSON_stringify c (this w) with
  | Normal (fullUrl, options) => [(fullUrl, request_init (this w) options)]
  | Abrupt _ => []
  end.
Proof.
  rewrite perform_spec. simpl.
  destruct (prepare URL_new JSON_stringify c (this w)) as [[fullUrl options]|e]; simpl.
  - destruct (node_fetch fullUrl _) as [response|e]; [|reflexivity].
    destruct (applyMiddleware _ response) as [[r cur]|]; reflexivity.
  - now rewrite app_nil_r.
Qed.

Lemma expected_requests_shift (cs : list (Call Value)) (a a' : Api Value) :
  baseUrl a' = baseUrl a -> auth a' = auth a ->
  length (headers a') = length (headers a) + length (getHeaders (auth a)) ->
  forall k,
    expected_requests URL_new JSON_stringify a' k cs =
    expected_requests URL_new JSON_stringify a (S k) cs.
Proof.
  intros Hb Ha Hh. induction cs as [|c cs IH]; intros k; simpl; [reflexivity|].
  rewrite (prepare_baseUrl URL_new JSON_stringify c _ _ Hb).
  destruct (prepare URL_new JSON_stringify c a) as [[fullUrl options]|e].
  - rewrite IH, Ha, Hh. do 4 f_equal. lia.
  - apply IH.
Qed.

Lemma expected_requests_same (cs : list (Call Value)) (a a' : Api Value) :
  baseUrl a' = baseUrl a -> auth a' = auth a -> headers a' = headers a ->
  forall k,
    expected_requests URL_new JSON_stringify a' k cs =
    expected_requests URL_new JSON_stringify a k cs.
Proof.
  intros Hb Ha Hh. induction cs as [|c cs IH]; intros k; simpl; [reflexivity|].
  rewrite (prepare_baseUrl URL_new JSON_stringify c _ _ Hb).
  destruct (prepare URL_new JSON_stringify c a) as [[fullUrl options]|e].
  - now rewrite IH, Ha, Hh.
  - apply IH.
Qed.

Lemma expected_requests_headers (a : Api Value) (cs : list (Call Value)) :
  forall k,
    map (fun rq => init_headers (snd rq))
      (expected_requests URL_new JSON_stringify a k cs) =
    map (fun j => HNumber (length (headers a) + j * length (getHeaders (auth a))))
      (seq k (length (filter (fun c => constructed URL_new JSON_stringify c a) cs))).
Proof.
  induction cs as [|c cs IH]; intros k; simpl; [reflexivity|].
  unfold constructed.
  destruct (prepare URL_new JSON_stringify c a) as [[fullUrl options]|e]; simpl.
  - now rewrite IH.
  - apply IH.
Qed.

(** X7.  Over any sequence of verb calls, the requests sent are, in call
    order, one for each call whose request is constructed and none for the
    others, each to the URL and with the method and body of its call; the
    value under [headers] of the k-th of them is the number [h + k * a],
    where [h] is the number of header entries the handle started with and
    [a] the number of entries the auth strategy gives. *)
Theorem header_numbers_grow (cs : list (Call Value)) (w : World Value) :
  sent (perform_all URL_new JSON_stringify node_fetch cs w) =
    sent w ++ expected_requests URL_new JSON_stringify (this w) 1 cs /\
  map (fun rq => init_headers (snd rq))
    (expected_requests URL_new JSON_stringify (this w) 1 cs) =
  map (fun k => HNumber (length (headers (this w)) +
                         k * length (getHeaders (auth (this w)))))
      (seq 1 (length (filter (fun c => constructed URL_new JSON_stringify c (this w)) cs))).
Proof.
  split; [|apply expected_requests_headers].
  unfold perform_all. revert w. induction cs as [|c cs IH]; intros w.
  - simpl. now rewrite app_nil_r.
  - cbn [fold_left].
    destruct (perform_frame URL_new JSON_stringify node_fetch c w) as (Hb & Ha & _ & Hh).
    pose proof (perform_sent c w) as Hs. cbv zeta in *.
    set (w1 := snd (perform URL_new JSON_stringify node_fetch c w)) in *.
    rewrite (IH w1), Hs. cbn [expected_requests].
    unfold constructed in Hh. unfold request_init.
    destruct (prepare URL_new JSON_stringify c (this w)) as [[fullUrl options]|e].
    + rewrite (expected_requests_shift cs (this w) (this w1) Hb Ha)
        by (rewrite Hh, length_app; reflexivity).
      rewrite <- app_assoc. simpl. rewrite length_app. do 5 f_equal. lia.
    + rewrite (expected_requests_same cs (this w) (this w1) Hb Ha)
        by (now rewrite Hh, app_nil_r).
      now rewrite app_nil_r.
Qed.

(** X8.  Once a call has passed a call-level middleware that never calls
    its continuation to a handle whose own middleware all forward, every
    later verb call that gets a response, whatever verb calls were made in
    between, settles with what that middleware completes with, and none of
    the middleware passed by the later calls is executed: the run calls
    exactly the handle's original positions and the leaked one. *)
Theorem terminal_call_middleware_shadows_later_calls (c1 c2 : Call Value)
    (between : list (Call Value))
    (w : World Value) (t : Middleware Value)
    (fullUrl : URL) (options : Options) (response : Value) :
  Forall (@forwards Value) (middleware (this w)) ->
  call_middleware c1 = [t] ->
  (forall d, never_calls_next (t d)) ->
  let w1 := perform_all URL_new JSON_stringify node_fetch between
              (snd (perform URL_new JSON_stringify node_fetch c1 w)) in
  prepare URL_new JSON_stringify c2 (this w1) = Normal (fullUrl, options) ->
  node_fetch fullUrl (request_init (this w1) options) = Normal response ->
  let result := perform URL_new JSON_stringify node_fetch c2 w1 in
  fst result = Normal (settle (completion (t (feed (middleware (this w)) response)))) /\
  exists cur,
    runs (snd result) = runs w1 ++ [log cur] /\
    invoked (log cur) = seq 0 (S (length (middleware (this w)))).
Proof.
  intros Hf Hc1 Ht w1 Hp Hr result.
  destruct (perform_frame URL_new JSON_stringify node_fetch c1 w) as (_ & _ & Hm1 & _).
  cbv zeta in Hm1. rewrite Hc1 in Hm1.
  destruct (perform_all_frame URL_new JSON_stringify node_fetch between
              (snd (perform URL_new JSON_stringify node_fetch c1 w)))
    as (_ & _ & (rest & Hmb) & _).
  fold w1 in Hmb. rewrite Hm1 in Hmb.
  destruct (perform_chain URL_new JSON_stringify node_fetch c2 w1 Hp Hr)
    as (r & cur & E & _ & Hres & Hruns).
  rewrite Hmb in E.
  set (l := middleware (this w)) in *.
  set (chain := ((l ++ [t]) ++ rest) ++ call_middleware c2) in *.
  assert (Echain : chain = l ++ t :: (rest ++ call_middleware c2)).
  { unfold chain. rewrite <- !app_assoc. reflexivity. }
  assert (Hnth : nth_error chain (length l) = Some t).
  { rewrite Echain, nth_error_app2 by lia. now rewrite Nat.sub_diag. }
  assert (Hfirst : firstn (length l) chain = l).
  { rewrite Echain, firstn_app, Nat.sub_diag, firstn_all. simpl.
    now rewrite app_nil_r. }
  destruct (@short_circuit_run _ chain (length l) t response Hnth)
    as (c & E' & _ & Hinv).
  - now rewrite Hfirst.
  - apply Ht.
  - rewrite Hfirst in E'. rewrite E' in E. injection E as <- <-.
    split; [exact Hres|]. exists c. split; [exact Hruns|exact Hinv].
Qed.

(** X9.  Passing the same pass-through middleware at call level on two
    successive calls to a handle whose own middleware pass through makes the
    second call execute it twice: it sits at the last two positions of the
    chain and the run calls every position. *)
Theorem repeated_call_middleware_runs_twice (c1 c2 : Call Value)
    (w : World Value) (m : Middleware Value)
    (fullUrl : URL) (options : Options) (response : Value) :
  Forall (@passthrough Value) (middleware (this w)) -> passthrough m ->
  call_middleware c1 = [m] -> call_middleware c2 = [m] ->
  let w1 := snd (perform URL_new JSON_stringify node_fetch c1 w) in
  prepare URL_new JSON_stringify c2 (this w1) = Normal (fullUrl, options) ->
  node_fetch fullUrl (request_init (this w1) options) = Normal response ->
  let result := perform URL_new JSON_stringify node_fetch c2 w1 in
  let n := length (middleware (this w)) in
  fst result = Normal (Resolved response) /\
  middleware (this (snd result)) = middleware (this w) ++ [m; m] /\
  nth_error (middleware (this (snd result))) n = Some m /\
  nth_error (middleware (this (snd result))) (S n) = Some m /\
  exists cur,
    runs (snd result) = runs w1 ++ [log cur] /\
    invoked (log cur) = seq 0 (n + 2).
Proof.
  intros Hl Hm Hc1 Hc2 w1 Hp Hr result n.
  destruct (perform_frame URL_new JSON_stringify node_fetch c1 w) as (_ & _ & Hm1 & _).
  fold w1 in Hm1. rewrite Hc1 in Hm1.
  destruct (perform_frame URL_new JSON_stringify node_fetch c2 w1) as (_ & _ & Hm2 & _).
  fold result in Hm2. rewrite Hc2, Hm1, <- app_assoc in Hm2. simpl in Hm2.
  destruct (perform_chain URL_new JSON_stringify node_fetch c2 w1 Hp Hr)
    as (r & cur & E & _ & Hres & Hruns).
  rewrite Hm1, Hc2, <- app_assoc in E. simpl in E.
  assert (Hp2 : Forall (@passthrough Value) (middleware (this w) ++ [m; m])).
  { apply Forall_app. split; [exact Hl|]. repeat constructor; exact Hm. }
  pose proof (@passthrough_invoked _ _ _ _ _ Hp2 E) as Hi.
  rewrite length_app in Hi. simpl in Hi.
  assert (Hrv : r = Normal response).
  { destruct (middleware (this w) ++ [m; m]) as [|m0 ms] eqn:El.
    - now destruct (middleware (this w)).
    - rewrite (passthrough_chain response Hp2) in E. now injection E as <- _. }
  fold result in Hres, Hruns. rewrite Hm2. subst r.
  split; [exact Hres|]. split; [reflexivity|]. split; [|split].
  - rewrite nth_error_app2 by (unfold n; lia). unfold n. now rewrite Nat.sub_diag.
  - rewrite nth_error_app2 by (unfold n; lia). unfold n.
    now replace (S (length (middleware (this w))) - length (middleware (this w)))
      with 1 by lia.
  - exists cur. split; [exact Hruns|exact Hi].
Qed.

(** X10.  [constructUrlWithQueryParams] and [get] resolve the url the same
    way: one throws an error for a url exactly when the other throws it. *)
Theorem url_resolution_agrees (url : string) (params : list (string * string))
    (mw : list (Middleware Value)) (w : World Value) (e : Exn Value) :
  fst (constructUrlWithQueryParams URL_new url params w) = Abrupt e <->
  fst (get URL_new node_fetch url mw w) = Abrupt e.
Proof.
  unfold constructUrlWithQueryParams, get, fetch, bind, self, lift, ret,
    middleware_push, headers_push, transport. simpl.
  destruct (URL_new url (baseUrl (this w))) as [u|e0]; simpl.
  - split; [discriminate|].
    destruct (node_fetch u _) as [response|e1]; [|discriminate].
    unfold promise_then, runChain. simpl.
    destruct (applyMiddleware _ response) as [[[r|e1] cur]|]; discriminate.
  - split; intros [= ->]; reflexivity.
Qed.

End HandleExtras.

(** ** The further statements at concrete inputs *)

Lemma chain_run_ends_in_order_witness :
  exists r c,
    applyMiddleware [Demo.twice; Demo.rescue; Demo.boom; Demo.twice] 5 = Some (r, c) /\
    NoDup (invoked (log c)) /\
    length (invoked (log c)) <= 4 /\
    exists rest, invoked (log c) = 0 :: rest.
Proof.
  destruct (@chain_run_ends_in_order nat
              [Demo.twice; Demo.rescue; Demo.boom; Demo.twice] 5)
    as (r & c & E & _ & _ & Hnd & Hlen & Hfirst).
  exists r, c. split; [exact E|]. split; [exact Hnd|]. split; [exact Hlen|].
  apply Hfirst. discriminate.
Defined.

Lemma chain_failures_come_from_middleware_witness :
  exists i,
    In (Failed i (Raised 1))
       [Invoked 0; Invoked 1; Failed 1 (@Raised nat 1)].
Proof.
  apply (@chain_failures_come_from_middleware nat
           [Demo.forward; Demo.boom; Demo.stop 20] 5 (Abrupt (Raised 1))
           {| index := 1; log := [Invoked 0; Invoked 1; Failed 1 (Raised 1)] |}
           (Raised 1)).
  - discriminate.
  - reflexivity.
  - reflexivity.
Defined.

Lemma forwarding_chain_composes_witness :
  applyMiddleware [Demo.bump; Demo.bump; Demo.forward] 5 =
  Some (Normal 7, {| index := 3; log := [Invoked 0; Invoked 1; Invoked 2] |}).
Proof.
  apply (@forwarding_chain_composes nat [Demo.bump; Demo.bump; Demo.forward] 5).
  - discriminate.
  - repeat constructor; intros d; eexists _, (@Return nat); split; reflexivity.
Defined.

Lemma wrapping_chain_composes_witness :
  applyMiddleware [Demo.wrap; Demo.bump; Demo.wrap] 5 =
  Some (Normal 8, {| index := 3; log := [Invoked 0; Invoked 1; Invoked 2] |}).
Proof.
  apply (@wrapping_chain_composes nat [Demo.wrap; Demo.bump; Demo.wrap]
           [(fun d => d, S); (S, fun r => r); (fun d => d, S)] 5).
  - discriminate.
  - repeat constructor; intros d; simpl; eexists; split; reflexivity.
Defined.

Lemma failed_construction_keeps_middleware_witness :
  Demo.perform (CallGet "/items" [Demo.stop 1]) Demo.misconfigured =
  (Abrupt (TypeError "Invalid URL"),
   mkWorld
     (mkApi "api.example.com" Demo.bearer [["Accept"; "application/json"]]
        [Demo.forward; Demo.stop 1])
     [] []).
Proof.
  apply (@failed_construction_keeps_middleware nat
           Demo.URL_new Demo.JSON_stringify Demo.node_fetch
           (CallGet "/items" [Demo.stop 1]) Demo.misconfigured
           (TypeError "Invalid URL")).
  reflexivity.
Defined.

Lemma handle_without_middleware_rejects_witness :
  Demo.perform (CallGet "/items" []) (Demo.handle "https://api.example.com" []) =
  (Normal (Rejected not_a_function),
   mkWorld
     (mkApi "https://api.example.com" Demo.bearer
        [["Accept"; "application/json"]; ["Authorization"; "Bearer abc"]] [])
     [(Demo.items, {| init_headers := HNumber 2; init_options := Demo.get_options |})]
     [[]]).
Proof.
  apply (@handle_without_middleware_rejects nat
           Demo.URL_new Demo.JSON_stringify Demo.node_fetch
           "https://api.example.com" Demo.bearer [["Accept"; "application/json"]]
           (CallGet "/items" []) [] [] Demo.items Demo.get_options 200);
    reflexivity.
Defined.

Lemma terminal_call_middleware_shadows_later_calls_witness :
  fst (Demo.perform (CallPost "/items" 7 [Demo.stop 2])
         (Demo.perform_all [CallGet "/items" [Demo.stop 5]; CallGet "/down" []]
            (snd (Demo.perform (CallGet "/items" [Demo.stop 1]) Demo.service)))) =
  Normal (Resolved 1).
Proof.
  destruct (@terminal_call_middleware_shadows_later_calls nat
              Demo.URL_new Demo.JSON_stringify Demo.node_fetch
              (CallGet "/items" [Demo.stop 1]) (CallPost "/items" 7 [Demo.stop 2])
              [CallGet "/items" [Demo.stop 5]; CallGet "/down" []]
              Demo.service (Demo.stop 1)
              Demo.items {| body := Some "{}"; method := POST |} 200)
    as [H _].
  - repeat constructor; intros d; eexists _, (@Return nat); split; reflexivity.
  - reflexivity.
  - intros d. exact I.
  - reflexivity.
  - reflexivity.
  - exact H.
Defined.

Lemma repeated_call_middleware_runs_twice_witness :
  middleware
    (this (snd (Demo.perform (CallGet "/items" [Demo.forward])
                  (snd (Demo.perform (CallGet "/items" [Demo.forward])
                          (Demo.handle "https://api.example.com" [Demo.forward])))))) =
    [Demo.forward; Demo.forward; Demo.forward] /\
  exists cur,
    runs (snd (Demo.perform (CallGet "/items" [Demo.forward])
                 (snd (Demo.perform (CallGet "/items" [Demo.forward])
                         (Demo.handle "https://api.example.com" [Demo.forward]))))) =
      [[Invoked 0; Invoked 1]] ++ [log cur] /\
    invoked (log cur) = [0; 1; 2].
Proof.
  assert (P : passthrough Demo.forward)
    by (intros d; exists (@Return nat); split; reflexivity).
  destruct (@repeated_call_middleware_runs_twice nat
              Demo.URL_new Demo.JSON_stringify Demo.node_fetch
              (CallGet "/items" [Demo.forward]) (CallGet "/items" [Demo.forward])
              (Demo.handle "https://api.example.com" [Demo.forward]) Demo.forward
              Demo.items Demo.get_options 200)
    as (_ & Hm & _ & _ & Hrun).
  - repeat constructor. exact P.
  - exact P.
  - reflexivity.
  - reflexivity.
  - reflexivity.
  - reflexivity.
  - split; [exact Hm|exact Hrun].
Defined.

Lemma url_resolution_agrees_witness :
  fst (get Demo.URL_new Demo.node_fetch "/items" [Demo.forward] Demo.misconfigured) =
  Abrupt (TypeError "Invalid URL").
Proof.
  apply (proj1 (@url_resolution_agrees nat Demo.URL_new Demo.node_fetch
                  "/items" [("page", "2")] [Demo.forward] Demo.misconfigured
                  (TypeError "Invalid URL"))).
  reflexivity.
Defined.
